(** * LangChain / Gemini / Pinecone notebook: a shallow embedding

    The notebook [LangChain_Gemini_Pinecone_Project_Explained.ipynb] is a
    sequence of cells that call three external services.  The cells are
    embedded as computations in a small trace-and-exception monad: every
    call that leaves the notebook (an environment lookup, a client
    constructor, a model invocation, a REPL run) appends one event to the
    trace and gets its answer from a [world], which stands for whatever the
    services reply.  A Python exception is the left injection of the result;
    there is no [try] anywhere in the notebook, so [bind] is the only way an
    exception travels. *)

From Stdlib Require Import String Ascii List Bool Arith Lia.
From stdpp Require Import gmap strings list.
Import ListNotations.

Set Warnings "-register-all".

Local Open Scope string_scope.
Local Open Scope list_scope.

(** ** Text

    Python [str] values are modelled as strings of 8-bit characters.  On
    these, [str.lower] sends ['A'..'Z'] to ['a'..'z'] and keeps every other
    character. *)

Module Text.

Definition is_upper (c : ascii) : bool :=
  (65 <=? nat_of_ascii c)%nat && (nat_of_ascii c <=? 90)%nat.

Definition lower_char (c : ascii) : ascii :=
  if is_upper c then ascii_of_nat (nat_of_ascii c + 32) else c.

(** [s.lower()] *)
Fixpoint lower (s : string) : string :=
  match s with
  | EmptyString => EmptyString
  | String c t => String (lower_char c) (lower t)
  end.

(** [s.startswith(sub)] *)
Fixpoint startswith (s sub : string) : bool :=
  match sub, s with
  | EmptyString, _ => true
  | String _ _, EmptyString => false
  | String a sub', String b s' =>
      if Ascii.eqb a b then startswith s' sub' else false
  end.

(** [sub in s]: [sub] occurs in [s] at some offset. *)
Fixpoint str_in (sub s : string) : bool :=
  startswith s sub ||
  match s with
  | EmptyString => false
  | String _ t => str_in sub t
  end.

(** The declarative reading of [sub in s]. *)
Definition occurs_in (sub s : string) : Prop :=
  exists pre post, s = pre +:+ sub +:+ post.

End Text.

(** ** Values, exceptions, events *)

(** The Python values that the notebook hands to the model: a string, a set
    literal [{a, b}], a dict literal [{k: v}], a list literal. *)
Inductive pyval : Type :=
| PStr (s : string)
| PSet (xs : gset string)
| PDict (d : gmap string string)
| PList (l : list pyval).

Inductive exn : Type :=
| KeyError (key : string)
| NameError (name : string)
| ServiceError (msg : string).

Inductive event : Type :=
| EnvRead (key : string)                  (* os.environ[key] *)
| ClientInit (client api_key : string)    (* genai.configure / Pinecone(...) *)
| LlmInvoke (model : string) (p : pyval)  (* llm.invoke(p) *)
| ChainRun (input : string)               (* llm_chain.run(input) *)
| ReplRun (code : string).                (* python_repl.run(code) *)

Definition result (A : Type) : Type := (exn + A)%type.

(** What lies outside the notebook.  Each answer may depend on everything
    that happened before the call, so two calls with the same argument need
    not agree.  [llm_chain] is a global name that the notebook uses and
    never binds: a [world] in which it is unbound answers
    [inl (NameError "llm_chain")] to every call. *)
Record world : Type := {
  client_init : list event -> string -> string -> result unit;
  llm_invoke : list event -> string -> pyval -> result string;
  format_messages : pyval -> string -> pyval;
  llm_chain_run : list event -> string -> result string;
  python_repl_run : list event -> string -> result string
}.

(** ** The monad *)

Definition M (A : Type) : Type := list event -> result A * list event.

Definition ret {A} (a : A) : M A := fun tr => (inr a, tr).

Definition bind {A B} (m : M A) (k : A -> M B) : M B :=
  fun tr =>
    match m tr with
    | (inr a, tr') => k a tr'
    | (inl e, tr') => (inl e, tr')
    end.

(** One external call: the service sees the history, the call is logged. *)
Definition call {A} (ev : event) (f : list event -> result A) : M A :=
  fun tr => (f tr, tr ++ [ev]).

Notation "x <- m ;; k" := (bind m (fun x => k))
  (at level 100, m at next level, right associativity).

Definition outcome {A} (r : result A * list event) : result A := fst r.
Definition trace {A} (r : result A * list event) : list event := snd r.

(** ** Section 12 of the notebook: [run_agent] *)

Definition run_agent (w : world) (input_text : string) : M string :=
  response <- call (ChainRun input_text)
                   (fun tr => llm_chain_run w tr input_text) ;;
  if Text.str_in "calculate" (Text.lower input_text) then
    python_result <- call (ReplRun response)
                          (fun tr => python_repl_run w tr response) ;;
    ret python_result
  else
    ret response.

(** The code strings given to the REPL, in order. *)
Fixpoint repl_runs (tr : list event) : list string :=
  match tr with
  | [] => []
  | ReplRun code :: tr' => code :: repl_runs tr'
  | _ :: tr' => repl_runs tr'
  end.

Definition repl_invoked (tr : list event) : bool :=
  match repl_runs tr with [] => false | _ :: _ => true end.


(** The events a computation adds to a history [tr]. *)
Definition emitted {A} (m : M A) (tr : list event) : list event :=
  drop (length tr) (trace (m tr)).

(** ** Sections 2 and 10: credentials *)

(** [os.environ[key]]: a [KeyError] when the variable is not set. *)
Definition os_environ (env : gmap string string) (key : string) : M string :=
  call (EnvRead key)
       (fun _ => match env !! key with
                 | Some v => inr v
                 | None => inl (KeyError key)
                 end).

(** [genai.configure(api_key=os.environ["GOOGLE_API_KEY"])] *)
Definition configure_genai (w : world) (env : gmap string string) : M unit :=
  api_key <- os_environ env "GOOGLE_API_KEY" ;;
  call (ClientInit "genai.configure" api_key)
       (fun tr => client_init w tr "genai.configure" api_key).

(** [pc = Pinecone(api_key=os.environ["PINECONE_API_KEY"])] *)
Definition pinecone_client (w : world) (env : gmap string string) : M unit :=
  api_key <- os_environ env "PINECONE_API_KEY" ;;
  call (ClientInit "Pinecone" api_key)
       (fun tr => client_init w tr "Pinecone" api_key).

(** The two statements of the notebook that consult the environment, run
    one after the other, as when their two cells are executed in order and
    nothing else is.  The cells that lie between them in the notebook
    (sections 3 to 9) are not part of this computation. *)
Definition load_credentials (w : world) (env : gmap string string) : M unit :=
  _ <- configure_genai w env ;;
  pinecone_client w env.

(** The environment variables looked up, in order. *)
Fixpoint env_reads (tr : list event) : list string :=
  match tr with
  | [] => []
  | EnvRead key :: tr' => key :: env_reads tr'
  | _ :: tr' => env_reads tr'
  end.

(** The keys handed to client constructors, with the client's name. *)
Fixpoint client_inits (tr : list event) : list (string * string) :=
  match tr with
  | [] => []
  | ClientInit c k :: tr' => (c, k) :: client_inits tr'
  | _ :: tr' => client_inits tr'
  end.

(** ** Sections 3 and 4: direct invocations *)

(** [llm = ChatGoogleGenerativeAI(model="gemini-1.5-pro")] *)
Definition llm : string := "gemini-1.5-pro".

(** [llm.invoke(p)], returning the content of the reply. *)
Definition invoke (w : world) (model : string) (p : pyval) : M string :=
  call (LlmInvoke model p) (fun tr => llm_invoke w tr model p).

Definition ballad : pyval := PStr "Write me a ballad about LangChain".

(** [llm.invoke("Write me a ballad about LangChain")] *)
Definition invoke_ballad (w : world) : M string := invoke w llm ballad.

(** The list of section 4.  Each element is written with braces and a
    comma, which in Python is a set literal of two strings. *)
Definition messages : pyval :=
  PList [ PSet {[ "system"; "You are an expert data scientist" ]};
          PSet {[ "human";
                  "Write a Python script that trains a neural network on simulated data " ]} ].

(** [ai_msg = llm.invoke(messages)] *)
Definition invoke_messages (w : world) : M string := invoke w llm messages.

(** The shape a prompt is said to have: a string, or a mapping (a dict),
    or a list of mappings. *)
Definition is_mapping (v : pyval) : bool :=
  match v with PDict _ => true | _ => false end.

Definition prompt_shape (v : pyval) : bool :=
  match v with
  | PStr _ => true
  | PDict _ => true
  | PList l => forallb is_mapping l
  | PSet _ => false
  end.

(** The prompts sent to the model, in order. *)
Fixpoint llm_prompts (tr : list event) : list (string * pyval) :=
  match tr with
  | [] => []
  | LlmInvoke model p :: tr' => (model, p) :: llm_prompts tr'
  | _ :: tr' => llm_prompts tr'
  end.

(** ** Sections 6 to 8: the prompt template and the chains *)

(** The argument of [ChatPromptTemplate.from_messages]. *)
Definition prompt : pyval :=
  PList [ PSet {[ "system";
                  "You are an expert data scientist with an expertise in building deep learning models." ]};
          PSet {[ "human";
                  "Explain the concept of {concept} in a couple of lines" ]} ].

(** [LLMChain(llm=..., prompt=...)] *)
Record LLMChain : Type := {
  chain_llm : string;
  chain_prompt : pyval
}.

(** [chain = LLMChain(llm=llm, prompt=prompt)] *)
Definition chain : LLMChain := {| chain_llm := llm; chain_prompt := prompt |}.

(** Modelled from the spec: [LLMChain.run], which belongs to the chain
    library and is not in the notebook.  The glossary calls a chain an
    abstraction linking a prompt template to a model call: the template is
    filled with the input and the result is sent to the chain's model in
    one invocation. *)
Definition LLMChain_run (w : world) (c : LLMChain) (x : string) : M string :=
  invoke w (chain_llm c) (format_messages w (chain_prompt c) x).

(** Modelled from the spec: [chain_two], which the notebook puts in the
    sequential chain and never defines.  The spec has the sequential chain
    delegate to the same model call twice, so [chain_two] is a chain over
    the same [llm]; its template is left open. *)
Definition chain_two (prompt_two : pyval) : LLMChain :=
  {| chain_llm := llm; chain_prompt := prompt_two |}.

(** Modelled from the spec: [SimpleSequentialChain.run], which belongs to
    the chain library: sequential delegation, each chain run on the output
    of the one before it. *)
Fixpoint SimpleSequentialChain_run (w : world) (chains : list LLMChain)
    (x : string) : M string :=
  match chains with
  | [] => ret x
  | c :: cs =>
      y <- LLMChain_run w c x ;;
      SimpleSequentialChain_run w cs y
  end.

(** [overall_chain = SimpleSequentialChain(chains=[chain, chain_two])] and
    [overall_chain.run(x)] *)
Definition overall_chain (prompt_two : pyval) : list LLMChain :=
  [chain; chain_two prompt_two].

Definition overall_chain_run (w : world) (prompt_two : pyval) (x : string)
    : M string :=
  SimpleSequentialChain_run w (overall_chain prompt_two) x.

(** ** Concrete inputs *)

(** [command = "Calculate the square of 7"] *)
Definition command : string := "Calculate the square of 7".

(** A world in which every service answers. *)
Definition demo_world (response : string) : world := {|
  client_init := fun _ _ _ => inr tt;
  llm_invoke := fun tr _ _ =>
    inr (match tr with [] => "first reply" | _ :: _ => "later reply" end);
  format_messages := fun t x => PList [t; PStr x];
  llm_chain_run := fun _ _ => inr response;
  python_repl_run := fun _ code => inr ("ran: " +:+ code)
|}.

(** A world in which nothing outside the notebook is reachable: the global
    [llm_chain] is unbound and every service call fails. *)
Definition broken_world : world := {|
  client_init := fun _ _ _ => inl (ServiceError "unreachable");
  llm_invoke := fun _ _ _ => inl (ServiceError "unreachable");
  format_messages := fun t x => PList [t; PStr x];
  llm_chain_run := fun _ _ => inl (NameError "llm_chain");
  python_repl_run := fun _ _ => inl (ServiceError "unreachable")
|}.

(** An environment holding the two API keys and nothing else. *)
Definition two_keys : gmap string string :=
  {[ "GOOGLE_API_KEY" := "g-key"; "PINECONE_API_KEY" := "p-key" ]}.

(** ** Letter case *)

(** Two characters that are the same letter up to case: the same character,
    or an ASCII capital and its small letter (32 apart), or two characters
    outside ASCII.  Letters of other alphabets are written with characters
    of code 128 and above in either case, so the relation does not look at
    those at all: it holds of every two texts that differ only in the case
    of letters, ASCII or not, and of more. *)
Definition same_letter (c d : ascii) : bool :=
  let m := nat_of_ascii c in
  let n := nat_of_ascii d in
  (m =? n)%nat
  || ((65 <=? m)%nat && (m <=? 90)%nat && (n =? m + 32)%nat)
  || ((65 <=? n)%nat && (n <=? 90)%nat && (m =? n + 32)%nat)
  || ((128 <=? m)%nat && (128 <=? n)%nat).

Fixpoint same_up_to_case (a b : string) : bool :=
  match a, b with
  | EmptyString, EmptyString => true
  | String c a', String d b' => same_letter c d && same_up_to_case a' b'
  | _, _ => false
  end.

(** [s.isascii()] *)
Fixpoint isascii (s : string) : bool :=
  match s with
  | EmptyString => true
  | String c t => (nat_of_ascii c <? 128)%nat && isascii t
  end.

(** ** The REPL tool *)






(** * Theorems *)

(** ** Text *)

Example lower_command : Text.lower command = "calculate the square of 7".
Proof. reflexivity. Qed.

Example str_in_command : Text.str_in "calculate" command = false.
Proof. reflexivity. Qed.

Example str_in_lower_command :
  Text.str_in "calculate" (Text.lower command) = true.
Proof. reflexivity. Qed.

Section TextFacts.

Import Text.

Lemma append_cons (a : ascii) (s t : string) :
  String a s +:+ t = String a (s +:+ t).
Proof. reflexivity. Qed.

Lemma startswith_occurs (sub s : string) :
  startswith s sub = true <-> exists post, s = sub +:+ post.
Proof.
  revert s. induction sub as [|a sub IH]; intros s.
  - split; [intros _; exists s; reflexivity | destruct s; reflexivity].
  - destruct s as [|b s]; simpl.
    + split; [discriminate | intros [post H]; discriminate H].
    + destruct (Ascii.eqb_spec a b) as [->|Hne].
      * rewrite IH. split; intros [post H]; exists post.
        -- now rewrite append_cons, H.
        -- rewrite append_cons in H. now inversion H.
      * split; [discriminate |].
        intros [post H]. rewrite append_cons in H. congruence.
Qed.

(** The test [sub in s] holds exactly when [sub] occurs in [s]. *)
Lemma str_in_occurs (sub s : string) :
  str_in sub s = true <-> occurs_in sub s.
Proof.
  unfold occurs_in. induction s as [|c s IH].
  - change (str_in sub "") with (startswith "" sub || false).
    rewrite orb_false_r, startswith_occurs. split.
    + intros [post H]. exists "", post. exact H.
    + intros [[|p pre] [post H]]; [eauto | discriminate H].
  - change (str_in sub (String c s))
      with (startswith (String c s) sub || str_in sub s).
    rewrite orb_true_iff, startswith_occurs, IH. split.
    + intros [[post H] | (pre & post & H)].
      * exists "", post. exact H.
      * exists (String c pre), post. now rewrite append_cons, H.
    + intros ([|p pre] & post & H).
      * left. exists post. exact H.
      * right. exists pre, post. rewrite append_cons in H. now inversion H.
Qed.

Lemma str_in_absent (sub s : string) :
  str_in sub s = false <-> ~ occurs_in sub s.
Proof.
  rewrite <- str_in_occurs. destruct (str_in sub s); split; intros H;
    try reflexivity; try discriminate; try (exfalso; apply H; reflexivity).
Qed.

(** Lowering is idempotent: a lowered text has no capital left. *)
Lemma lower_char_idem (c : ascii) : lower_char (lower_char c) = lower_char c.
Proof.
  destruct c as [[] [] [] [] [] [] [] []]; reflexivity.
Qed.

Lemma lower_idem (s : string) : lower (lower s) = lower s.
Proof.
  induction s as [|c s IH]; simpl; [reflexivity|].
  now rewrite lower_char_idem, IH.
Qed.

End TextFacts.

(** ** The monad *)

Lemma emitted_app {A} (m : M A) (tr new : list event) :
  trace (m tr) = tr ++ new -> emitted m tr = new.
Proof.
  intros H. unfold emitted. rewrite H. apply drop_app_length.
Qed.

Lemma bind_call_ok {A B} (ev : event) (f : list event -> result A)
    (k : A -> M B) (tr : list event) (a : A) :
  f tr = inr a -> bind (call ev f) k tr = k a (tr ++ [ev]).
Proof. intros H. unfold bind, call. now rewrite H. Qed.

Lemma bind_call_raise {A B} (ev : event) (f : list event -> result A)
    (k : A -> M B) (tr : list event) (e : exn) :
  f tr = inl e -> bind (call ev f) k tr = (inl e, tr ++ [ev]).
Proof. intros H. unfold bind, call. now rewrite H. Qed.

Lemma bind_ret_r {A} (m : M A) (tr : list event) :
  bind m ret tr = m tr.
Proof. unfold bind, ret. now destruct (m tr) as [[e|a] tr']. Qed.

(** ** [run_agent] *)

Section RunAgent.

Variable w : world.
Variable input_text : string.
Variable tr : list event.

Let keyword : bool := Text.str_in "calculate" (Text.lower input_text).
Let after_chain : list event := tr ++ [ChainRun input_text].

(** The chain call returned [response]: the test is reached. *)
Lemma run_agent_returns (response : string) :
  llm_chain_run w tr input_text = inr response ->
  run_agent w input_text tr =
    if keyword
    then (python_repl_run w after_chain response,
          tr ++ [ChainRun input_text; ReplRun response])
    else (inr response, after_chain).
Proof.
  intros H. unfold run_agent, keyword, after_chain.
  rewrite (bind_call_ok _ _ _ _ _ H).
  destruct (Text.str_in "calculate" (Text.lower input_text)).
  - rewrite bind_ret_r. unfold call. now rewrite <- app_assoc.
  - reflexivity.
Qed.

(** The chain call raised: nothing after it runs. *)
Lemma run_agent_raises (e : exn) :
  llm_chain_run w tr input_text = inl e ->
  run_agent w input_text tr = (inl e, after_chain).
Proof.
  intros H. unfold run_agent. now rewrite (bind_call_raise _ _ _ _ _ H).
Qed.

Lemma run_agent_emitted_returns (response : string) :
  llm_chain_run w tr input_text = inr response ->
  emitted (run_agent w input_text) tr =
    ChainRun input_text :: (if keyword then [ReplRun response] else []).
Proof.
  intros H. apply emitted_app. rewrite (run_agent_returns _ H).
  unfold after_chain. now destruct keyword.
Qed.

Lemma run_agent_emitted_raises (e : exn) :
  llm_chain_run w tr input_text = inl e ->
  emitted (run_agent w input_text) tr = [ChainRun input_text].
Proof.
  intros H. apply emitted_app. now rewrite (run_agent_raises _ H).
Qed.

(** Whether the REPL ran, when the chain call returned. *)
Lemma run_agent_repl_invoked (response : string) :
  llm_chain_run w tr input_text = inr response ->
  repl_invoked (emitted (run_agent w input_text) tr) = keyword.
Proof.
  intros H. rewrite (run_agent_emitted_returns _ H). now destruct keyword.
Qed.

End RunAgent.

(** C1, as the spec words it, does not hold: the REPL would run exactly
    when "calculate" occurs in the input text as given.  The notebook's own
    [command], "Calculate the square of 7", has no occurrence of
    "calculate" and still reaches the REPL. *)
Lemma repl_iff_keyword_in_raw_input_fails :
  ~ (forall (w : world) (input_text : string),
       repl_invoked (emitted (run_agent w input_text) []) = true <->
       Text.occurs_in "calculate" input_text).
Proof.
  intros H.
  destruct (H (demo_world "print(7**2)") command) as [Hrun _].
  apply str_in_occurs in Hrun; [discriminate Hrun | reflexivity].
Qed.

(** C1 (amended): for every input string, the REPL tool is invoked if and
    only if the chain call that precedes the test returned a response and
    "calculate" occurs in the lowercased input text; no other condition
    takes part in the decision. *)
Theorem repl_iff_keyword_in_lowered_input
    (w : world) (input_text : string) (tr : list event) :
  repl_invoked (emitted (run_agent w input_text) tr) = true <->
  (exists response, llm_chain_run w tr input_text = inr response) /\
  Text.occurs_in "calculate" (Text.lower input_text).
Proof.
  rewrite <- str_in_occurs.
  destruct (llm_chain_run w tr input_text) as [e|response] eqn:Hchain.
  - rewrite (run_agent_emitted_raises _ _ _ _ Hchain). simpl. split.
    + discriminate.
    + intros [[response H] _]. discriminate H.
  - rewrite (run_agent_repl_invoked _ _ _ _ Hchain). split.
    + intros Hkw. split; [now exists response | exact Hkw].
    + now intros [_ Hkw].
Qed.

(** C2: when the chain call returns [response], [run_agent] returns what
    the REPL makes of [response] if the keyword test holds, and returns
    [response] itself, with no REPL event, if it does not; every string
    handed to the REPL is [response]. *)
Theorem run_agent_result
    (w : world) (input_text : string) (tr : list event) (response : string)
    (Hchain : llm_chain_run w tr input_text = inr response) :
  (Text.occurs_in "calculate" (Text.lower input_text) ->
     outcome (run_agent w input_text tr) =
       python_repl_run w (tr ++ [ChainRun input_text]) response /\
     emitted (run_agent w input_text) tr =
       [ChainRun input_text; ReplRun response]) /\
  (~ Text.occurs_in "calculate" (Text.lower input_text) ->
     outcome (run_agent w input_text tr) = inr response /\
     emitted (run_agent w input_text) tr = [ChainRun input_text]) /\
  (forall code : string,
     In code (repl_runs (emitted (run_agent w input_text) tr)) ->
     code = response).
Proof.
  pose proof (run_agent_returns _ _ _ _ Hchain) as Hrun.
  pose proof (run_agent_emitted_returns _ _ _ _ Hchain) as Hem.
  cbv zeta in Hrun, Hem. rewrite Hrun, Hem.
  split; [|split].
  - intros Hkw. apply str_in_occurs in Hkw. now rewrite Hkw.
  - intros Hkw. apply str_in_absent in Hkw. now rewrite Hkw.
  - intros code.
    destruct (Text.str_in "calculate" (Text.lower input_text)); simpl.
    + intros [Heq | []]. now symmetry.
    + intros [].
Qed.

Lemma run_agent_result_witness :
  outcome (run_agent (demo_world "print(7**2)") command []) =
    inr "ran: print(7**2)" /\
  outcome (run_agent (demo_world "Hello") "say hello" []) = inr "Hello".
Proof.
  split.
  - destruct (run_agent_result (demo_world "print(7**2)") command []
                "print(7**2)" eq_refl) as [Hyes _].
    destruct Hyes as [Hout _]; [apply str_in_occurs; reflexivity|].
    exact Hout.
  - destruct (run_agent_result (demo_world "Hello") "say hello" []
                "Hello" eq_refl) as (_ & Hno & _).
    destruct Hno as [Hout _]; [apply str_in_absent; reflexivity|].
    exact Hout.
Defined.

(** ** Letter case *)

Section LetterCase.

Import Text.

Lemma nat_of_ascii_inj (c d : ascii) :
  nat_of_ascii c = nat_of_ascii d -> c = d.
Proof.
  intros H. rewrite <- (ascii_nat_embedding c), <- (ascii_nat_embedding d).
  now rewrite H.
Qed.

Lemma is_upper_spec (c : ascii) :
  is_upper c = true <-> 65 <= nat_of_ascii c /\ nat_of_ascii c <= 90.
Proof.
  unfold is_upper. now rewrite andb_true_iff, !Nat.leb_le.
Qed.

Lemma lower_char_capital (c : ascii) :
  65 <= nat_of_ascii c -> nat_of_ascii c <= 90 ->
  lower_char c = ascii_of_nat (nat_of_ascii c + 32).
Proof.
  intros H1 H2. unfold lower_char.
  now rewrite (proj2 (is_upper_spec c) (conj H1 H2)).
Qed.

Lemma lower_char_other (c : ascii) :
  nat_of_ascii c < 65 \/ 90 < nat_of_ascii c -> lower_char c = c.
Proof.
  intros H. unfold lower_char.
  destruct (is_upper c) eqn:E; [|reflexivity].
  apply is_upper_spec in E. lia.
Qed.

(** Lowering two characters that are the same letter gives the same
    character, unless both lie outside ASCII, where they stay. *)
Lemma same_letter_lower (c d : ascii) :
  same_letter c d = true ->
  lower_char c = lower_char d \/
  (128 <= nat_of_ascii (lower_char c) /\ 128 <= nat_of_ascii (lower_char d)).
Proof.
  unfold same_letter. cbv zeta.
  rewrite !orb_true_iff, !andb_true_iff, !Nat.eqb_eq, !Nat.leb_le.
  intros [[[H | [[H1 H2] H3]] | [[H1 H2] H3]] | [H1 H2]].
  - left. f_equal. now apply nat_of_ascii_inj.
  - left. rewrite (lower_char_capital c H1 H2), <- H3, ascii_nat_embedding.
    symmetry. apply lower_char_other. lia.
  - left. rewrite (lower_char_capital d H1 H2), <- H3, ascii_nat_embedding.
    apply lower_char_other. lia.
  - right. rewrite !lower_char_other by lia. now split.
Qed.

(** An ASCII character cannot tell two such characters apart once they are
    lowered. *)
Lemma eqb_lower_same_letter (k c d : ascii) :
  nat_of_ascii k < 128 -> same_letter c d = true ->
  Ascii.eqb k (lower_char c) = Ascii.eqb k (lower_char d).
Proof.
  intros Hk H. destruct (same_letter_lower c d H) as [-> | [Hc Hd]];
    [reflexivity|].
  destruct (Ascii.eqb_spec k (lower_char c)) as [->|_]; [lia|].
  destruct (Ascii.eqb_spec k (lower_char d)) as [->|_]; [lia|reflexivity].
Qed.

Lemma startswith_same_up_to_case (kw : string) :
  isascii kw = true ->
  forall a b, same_up_to_case a b = true ->
  startswith (lower a) kw = startswith (lower b) kw.
Proof.
  induction kw as [|k kw IH]; intros Hkw a b H.
  - destruct a, b; reflexivity.
  - simpl in Hkw. apply andb_true_iff in Hkw. destruct Hkw as [Hk Hkw].
    apply Nat.ltb_lt in Hk.
    destruct a as [|c a], b as [|d b]; try discriminate H; [reflexivity|].
    simpl in H. apply andb_true_iff in H. destruct H as [Hcd Hab].
    simpl. rewrite (eqb_lower_same_letter k c d Hk Hcd).
    now rewrite (IH Hkw a b Hab).
Qed.

(** The test for an ASCII keyword in the lowered text does not see a change
    of letter case. *)
Lemma str_in_same_up_to_case (kw : string) :
  isascii kw = true ->
  forall a b, same_up_to_case a b = true ->
  str_in kw (lower a) = str_in kw (lower b).
Proof.
  intros Hkw a. induction a as [|c a IH]; intros b H.
  - destruct b; [reflexivity | discriminate H].
  - destruct b as [|d b]; [discriminate H|].
    change (str_in kw (lower (String c a)))
      with (startswith (lower (String c a)) kw || str_in kw (lower a)).
    change (str_in kw (lower (String d b)))
      with (startswith (lower (String d b)) kw || str_in kw (lower b)).
    rewrite (startswith_same_up_to_case kw Hkw _ _ H).
    simpl in H. apply andb_true_iff in H. destruct H as [_ Hab].
    now rewrite (IH b Hab).
Qed.

End LetterCase.

(** C9: the keyword test is case-insensitive.  Whenever the chain call
    returns, the REPL branch is taken exactly when "calculate" is in the
    lowercased input, and two inputs that differ only in letter case, as
    "CALCULATE 1" and "calculate 1" do, take the same branch. *)
Theorem keyword_test_ignores_case
    (w : world) (a b : string) (tr : list event) (ra rb : string)
    (Hcase : same_up_to_case a b = true)
    (Ha : llm_chain_run w tr a = inr ra)
    (Hb : llm_chain_run w tr b = inr rb) :
  repl_invoked (emitted (run_agent w a) tr) =
    Text.str_in "calculate" (Text.lower a) /\
  repl_invoked (emitted (run_agent w a) tr) =
    repl_invoked (emitted (run_agent w b) tr).
Proof.
  rewrite (run_agent_repl_invoked _ _ _ _ Ha).
  rewrite (run_agent_repl_invoked _ _ _ _ Hb).
  split; [reflexivity|].
  now apply str_in_same_up_to_case.
Qed.

Lemma keyword_test_ignores_case_witness :
  repl_invoked (emitted (run_agent (demo_world "print(49)") "CALCULATE 1") [])
    = true /\
  repl_invoked (emitted (run_agent (demo_world "print(49)") "CALCULATE 1") [])
    = repl_invoked
        (emitted (run_agent (demo_world "print(49)") "calculate 1") []).
Proof.
  exact (keyword_test_ignores_case (demo_world "print(49)")
           "CALCULATE 1" "calculate 1" [] "print(49)" "print(49)"
           eq_refl eq_refl eq_refl).
Defined.

(** C10: whether the REPL runs depends on the input text only.  Two runs on
    the same input, in any two worlds and histories whose chain calls
    return (possibly different) responses, both invoke the REPL or both do
    not. *)
Theorem repl_decision_independent_of_response
    (w1 w2 : world) (input_text : string) (tr1 tr2 : list event)
    (r1 r2 : string)
    (H1 : llm_chain_run w1 tr1 input_text = inr r1)
    (H2 : llm_chain_run w2 tr2 input_text = inr r2) :
  repl_invoked (emitted (run_agent w1 input_text) tr1) =
  repl_invoked (emitted (run_agent w2 input_text) tr2).
Proof.
  rewrite (run_agent_repl_invoked _ _ _ _ H1).
  now rewrite (run_agent_repl_invoked _ _ _ _ H2).
Qed.

Lemma repl_decision_independent_of_response_witness :
  repl_invoked (emitted (run_agent (demo_world "print(7**2)") command) []) =
  repl_invoked
    (emitted (run_agent (demo_world "import os; os.getcwd()") command)
       [EnvRead "GOOGLE_API_KEY"]).
Proof.
  exact (repl_decision_independent_of_response
           (demo_world "print(7**2)") (demo_world "import os; os.getcwd()")
           command [] [EnvRead "GOOGLE_API_KEY"]
           "print(7**2)" "import os; os.getcwd()" eq_refl eq_refl).
Defined.

(** ** Credentials *)

Section Credentials.

Variable w : world.
Variable env : gmap string string.
Variable tr : list event.

(** A lookup is logged whether or not the variable is set. *)
Lemma os_environ_present (key v : string) :
  env !! key = Some v ->
  os_environ env key tr = (inr v, tr ++ [EnvRead key]).
Proof. intros H. unfold os_environ, call. now rewrite H. Qed.

Lemma os_environ_absent (key : string) :
  env !! key = None ->
  os_environ env key tr = (inl (KeyError key), tr ++ [EnvRead key]).
Proof. intros H. unfold os_environ, call. now rewrite H. Qed.

Lemma configure_genai_present (k : string) :
  env !! "GOOGLE_API_KEY" = Some k ->
  configure_genai w env tr =
    (client_init w (tr ++ [EnvRead "GOOGLE_API_KEY"]) "genai.configure" k,
     tr ++ [EnvRead "GOOGLE_API_KEY"; ClientInit "genai.configure" k]).
Proof.
  intros H. unfold configure_genai, bind.
  rewrite (os_environ_present _ _ H). unfold call. now rewrite <- app_assoc.
Qed.

Lemma configure_genai_absent :
  env !! "GOOGLE_API_KEY" = None ->
  configure_genai w env tr =
    (inl (KeyError "GOOGLE_API_KEY"), tr ++ [EnvRead "GOOGLE_API_KEY"]).
Proof.
  intros H. unfold configure_genai, bind.
  now rewrite (os_environ_absent _ H).
Qed.

Lemma pinecone_client_present (k : string) :
  env !! "PINECONE_API_KEY" = Some k ->
  pinecone_client w env tr =
    (client_init w (tr ++ [EnvRead "PINECONE_API_KEY"]) "Pinecone" k,
     tr ++ [EnvRead "PINECONE_API_KEY"; ClientInit "Pinecone" k]).
Proof.
  intros H. unfold pinecone_client, bind.
  rewrite (os_environ_present _ _ H). unfold call. now rewrite <- app_assoc.
Qed.

Lemma pinecone_client_absent :
  env !! "PINECONE_API_KEY" = None ->
  pinecone_client w env tr =
    (inl (KeyError "PINECONE_API_KEY"), tr ++ [EnvRead "PINECONE_API_KEY"]).
Proof.
  intros H. unfold pinecone_client, bind.
  now rewrite (os_environ_absent _ H).
Qed.

Lemma configure_genai_reads :
  env_reads (emitted (configure_genai w env) tr) = ["GOOGLE_API_KEY"].
Proof.
  destruct (env !! "GOOGLE_API_KEY") as [k|] eqn:H.
  - erewrite emitted_app; [|now rewrite (configure_genai_present _ H)].
    reflexivity.
  - erewrite emitted_app; [|now rewrite (configure_genai_absent H)].
    reflexivity.
Qed.

Lemma pinecone_client_reads :
  env_reads (emitted (pinecone_client w env) tr) = ["PINECONE_API_KEY"].
Proof.
  destruct (env !! "PINECONE_API_KEY") as [k|] eqn:H.
  - erewrite emitted_app; [|now rewrite (pinecone_client_present _ H)].
    reflexivity.
  - erewrite emitted_app; [|now rewrite (pinecone_client_absent H)].
    reflexivity.
Qed.

End Credentials.

(** The credential statements see the environment through two keys only. *)
Lemma load_credentials_two_keys (w : world) (env1 env2 : gmap string string)
    (tr : list event) :
  env1 !! "GOOGLE_API_KEY" = env2 !! "GOOGLE_API_KEY" ->
  env1 !! "PINECONE_API_KEY" = env2 !! "PINECONE_API_KEY" ->
  load_credentials w env1 tr = load_credentials w env2 tr.
Proof.
  intros Hg Hp.
  unfold load_credentials, configure_genai, pinecone_client, os_environ,
    bind, call.
  rewrite Hg. destruct (env2 !! "GOOGLE_API_KEY") as [g|]; [|reflexivity].
  destruct (client_init w _ "genai.configure" g) as [e|[]]; [reflexivity|].
  now rewrite Hp.
Qed.

(** C3, as the spec words it, does not hold: with the two API keys set and
    no vector-database environment variable at all, both credential
    statements succeed, and only two variables are ever looked up. *)
Lemma third_credential_not_required :
  two_keys !! "PINECONE_ENV" = None /\
  outcome (load_credentials (demo_world "") two_keys []) = inr tt /\
  env_reads (trace (load_credentials (demo_world "") two_keys [])) =
    ["GOOGLE_API_KEY"; "PINECONE_API_KEY"] /\
  ~ In "PINECONE_ENV"
      (env_reads (trace (load_credentials (demo_world "") two_keys []))).
Proof.
  split; [|split; [|split]]; try (vm_compute; reflexivity).
  vm_compute. intros [H | [H | []]]; discriminate H.
Qed.

(** C3 (amended): the program reads exactly two credentials from the
    environment, the model API key [GOOGLE_API_KEY] and the vector-database
    API key [PINECONE_API_KEY], and hands each to the client it configures;
    the vector-database environment/region variable is never read, and
    setting, changing or removing it changes nothing. *)
Theorem credentials_read_from_environment
    (w : world) (env : gmap string string) (tr : list event) :
  env_reads (emitted (configure_genai w env) tr) = ["GOOGLE_API_KEY"] /\
  env_reads (emitted (pinecone_client w env) tr) = ["PINECONE_API_KEY"] /\
  (forall k, env !! "GOOGLE_API_KEY" = Some k ->
     client_inits (emitted (configure_genai w env) tr) =
       [("genai.configure", k)]) /\
  (forall k, env !! "PINECONE_API_KEY" = Some k ->
     client_inits (emitted (pinecone_client w env) tr) = [("Pinecone", k)]) /\
  (forall v, load_credentials w (<["PINECONE_ENV" := v]> env) tr =
             load_credentials w env tr) /\
  load_credentials w (delete "PINECONE_ENV" env) tr =
    load_credentials w env tr.
Proof.
  split; [apply configure_genai_reads|].
  split; [apply pinecone_client_reads|].
  split; [|split; [|split]].
  - intros k H. erewrite emitted_app;
      [|now rewrite (configure_genai_present _ _ _ _ H)].
    reflexivity.
  - intros k H. erewrite emitted_app;
      [|now rewrite (pinecone_client_present _ _ _ _ H)].
    reflexivity.
  - intros v. apply load_credentials_two_keys;
      now rewrite lookup_insert_ne.
  - apply load_credentials_two_keys; now rewrite lookup_delete_ne.
Qed.

(** ** Model invocations and chains *)

Lemma invoke_returns (w : world) (model : string) (p : pyval)
    (tr : list event) :
  invoke w model p tr = (llm_invoke w tr model p, tr ++ [LlmInvoke model p]).
Proof. reflexivity. Qed.

Lemma invoke_emitted (w : world) (model : string) (p : pyval)
    (tr : list event) :
  emitted (invoke w model p) tr = [LlmInvoke model p].
Proof. now apply emitted_app. Qed.

(** A sequential chain only ever extends the history, and when it returns
    every chain in it has called its model once, in order. *)
Lemma SimpleSequentialChain_run_trace (w : world) (chains : list LLMChain) :
  forall (x : string) (tr : list event),
  exists new,
    trace (SimpleSequentialChain_run w chains x tr) = tr ++ new /\
    (forall r, outcome (SimpleSequentialChain_run w chains x tr) = inr r ->
       map fst (llm_prompts new) = map chain_llm chains).
Proof.
  induction chains as [|c cs IH]; intros x tr.
  - exists []. split; [simpl; now rewrite app_nil_r | reflexivity].
  - cbn [SimpleSequentialChain_run]. unfold LLMChain_run, invoke.
    set (p := format_messages w (chain_prompt c) x).
    destruct (llm_invoke w tr (chain_llm c) p) as [e|y] eqn:Hcall.
    + exists [LlmInvoke (chain_llm c) p].
      rewrite (bind_call_raise _ _ _ _ _ Hcall). split; [reflexivity|].
      intros r H. discriminate H.
    + rewrite (bind_call_ok _ _ _ _ _ Hcall).
      destruct (IH y (tr ++ [LlmInvoke (chain_llm c) p])) as (new & Htr & Hn).
      exists (LlmInvoke (chain_llm c) p :: new). split.
      * rewrite Htr. now rewrite <- app_assoc.
      * intros r H. simpl. f_equal. now apply (Hn r).
Qed.

Lemma SimpleSequentialChain_run_calls (w : world) (chains : list LLMChain)
    (x : string) (tr : list event) (r : string) :
  outcome (SimpleSequentialChain_run w chains x tr) = inr r ->
  map fst (llm_prompts (emitted (SimpleSequentialChain_run w chains x) tr)) =
    map chain_llm chains.
Proof.
  intros H.
  destruct (SimpleSequentialChain_run_trace w chains x tr) as (new & Htr & Hn).
  rewrite (emitted_app _ _ _ Htr). now apply (Hn r).
Qed.

(** ** Exceptions *)







(** C7: running the sequential chain on [x] invokes the same model [llm]
    exactly twice, one call after the other: the first call is made on the
    first template filled with [x]; its reply [r1] fills the second
    template, on which the second call is made; the reply [r2] of the
    second call is the result of the sequential chain. *)
Theorem sequential_chain_two_invocations
    (w : world) (prompt_two : pyval) (x : string) (tr : list event)
    (r1 r2 : string)
    (Hfirst : llm_invoke w tr llm (format_messages w prompt x) = inr r1)
    (Hsecond :
       llm_invoke w (tr ++ [LlmInvoke llm (format_messages w prompt x)])
         llm (format_messages w prompt_two r1) = inr r2) :
  outcome (overall_chain_run w prompt_two x tr) = inr r2 /\
  emitted (overall_chain_run w prompt_two x) tr =
    [LlmInvoke llm (format_messages w prompt x);
     LlmInvoke llm (format_messages w prompt_two r1)] /\
  map fst (llm_prompts (emitted (overall_chain_run w prompt_two x) tr)) =
    [llm; llm].
Proof.
  assert (Hrun : overall_chain_run w prompt_two x tr =
                 (inr r2, tr ++ [LlmInvoke llm (format_messages w prompt x);
                                 LlmInvoke llm (format_messages w prompt_two r1)])).
  { unfold overall_chain_run, overall_chain.
    cbn [SimpleSequentialChain_run]. unfold LLMChain_run, invoke.
    cbn [chain chain_two chain_llm chain_prompt].
    rewrite (bind_call_ok _ _ _ _ _ Hfirst).
    rewrite (bind_call_ok _ _ _ _ _ Hsecond).
    unfold ret. now rewrite <- app_assoc. }
  split; [now rewrite Hrun|].
  split.
  - apply emitted_app. now rewrite Hrun.
  - apply (SimpleSequentialChain_run_calls w (overall_chain prompt_two) x tr r2).
    fold (overall_chain_run w prompt_two x tr). now rewrite Hrun.
Qed.

Lemma sequential_chain_two_invocations_witness :
  outcome (overall_chain_run (demo_world "") (PStr "Expand: {text}")
             "autoencoder" []) = inr "later reply".
Proof.
  exact (proj1 (sequential_chain_two_invocations (demo_world "")
                  (PStr "Expand: {text}") "autoencoder" []
                  "first reply" "later reply" eq_refl eq_refl)).
Defined.

(** A set literal does not record the order in which it was written. *)
Lemma set_literal_unordered (a b : string) :
  ({[ a; b ]} : gset string) = {[ b; a ]}.
Proof. apply (comm_L (∪)). Qed.

(** C8, evaluated on sections 3, 4 and 6 of the notebook: both arguments
    of [llm.invoke] reach the model call as they were written, and the
    string of section 3 has the shape the claim gives a prompt; the list of
    section 4 and the template of section 6 do not, because each of their
    elements is a set of two strings, in which role and content are not
    told apart. *)
Theorem messages_are_sets_not_mappings (w : world) (tr : list event) :
  emitted (invoke_ballad w) tr = [LlmInvoke llm ballad] /\
  emitted (invoke_messages w) tr = [LlmInvoke llm messages] /\
  prompt_shape ballad = true /\
  prompt_shape messages = false /\
  prompt_shape prompt = false /\
  messages =
    PList [ PSet {[ "You are an expert data scientist"; "system" ]};
            PSet {[ "Write a Python script that trains a neural network on simulated data ";
                    "human" ]} ].
Proof.
  split; [apply invoke_emitted|].
  split; [apply invoke_emitted|].
  split; [reflexivity|].
  split; [reflexivity|].
  split; [reflexivity|].
  unfold messages.
  now rewrite (set_literal_unordered "system"),
    (set_literal_unordered "human").
Qed.

(** * Further properties of the notebook's code *)

(** ** More on text *)

Section MoreTextFacts.

Import Text.

Lemma length_app (a b : string) :
  String.length (a +:+ b) = String.length a + String.length b.
Proof.
  induction a as [|c a IH]; [reflexivity|].
  rewrite append_cons. simpl. now rewrite IH.
Qed.

Lemma lower_length (s : string) : String.length (lower s) = String.length s.
Proof. induction s as [|c s IH]; simpl; [reflexivity | now rewrite IH]. Qed.

Lemma lower_app (a b : string) : lower (a +:+ b) = lower a +:+ lower b.
Proof.
  induction a as [|c a IH]; [reflexivity|].
  rewrite append_cons. simpl. now rewrite IH.
Qed.

(** A text that contains [sub] is at least as long as [sub]. *)
Lemma str_in_length (sub s : string) :
  str_in sub s = true -> String.length sub <= String.length s.
Proof.
  intros H. apply str_in_occurs in H. destruct H as (pre & post & ->).
  rewrite !length_app. lia.
Qed.

(** The keyword test on a text built around any spelling of the keyword. *)
Lemma keyword_in_lowered (pre kw post : string) :
  lower kw = "calculate" ->
  str_in "calculate" (lower (pre +:+ kw +:+ post)) = true.
Proof.
  intros Hkw. apply str_in_occurs.
  exists (lower pre), (lower post). now rewrite !lower_app, Hkw.
Qed.

(** The keyword test fails on every text of fewer than nine characters. *)
Lemma keyword_not_in_short (s : string) :
  String.length s < 9 -> str_in "calculate" (lower s) = false.
Proof.
  intros Hlen.
  destruct (str_in "calculate" (lower s)) eqn:Hin; [|reflexivity].
  apply str_in_length in Hin. rewrite lower_length in Hin.
  simpl in Hin. lia.
Qed.

End MoreTextFacts.

(** ** More on [run_agent] *)

(** X1: the keyword is looked for anywhere in the input and in any mix of
    upper and lower case.  An input of the form [pre + kw + post], with
    [kw] any spelling of "calculate", sends the chain's response to the
    REPL, and the outcome of [run_agent] is the outcome of the REPL. *)
Theorem keyword_anywhere_any_case_runs_repl
    (w : world) (pre kw post : string) (tr : list event) (response : string)
    (Hkw : Text.lower kw = "calculate")
    (Hchain : llm_chain_run w tr (pre +:+ kw +:+ post) = inr response) :
  emitted (run_agent w (pre +:+ kw +:+ post)) tr =
    [ChainRun (pre +:+ kw +:+ post); ReplRun response] /\
  outcome (run_agent w (pre +:+ kw +:+ post) tr) =
    python_repl_run w (tr ++ [ChainRun (pre +:+ kw +:+ post)]) response.
Proof.
  pose proof (run_agent_returns _ _ _ _ Hchain) as Hrun.
  pose proof (run_agent_emitted_returns _ _ _ _ Hchain) as Hem.
  cbv zeta in Hrun, Hem.
  rewrite (keyword_in_lowered pre kw post Hkw) in Hrun, Hem.
  now rewrite Hrun, Hem.
Qed.

Lemma keyword_anywhere_any_case_runs_repl_witness :
  outcome (run_agent (demo_world "print(1)") "Please reCALCulated totals" [])
  = inr "ran: print(1)".
Proof.
  exact (proj2 (keyword_anywhere_any_case_runs_repl (demo_world "print(1)")
                  "Please re" "CALCulate" "d totals" [] "print(1)"
                  eq_refl eq_refl)).
Defined.

(** X2: an input of fewer than nine characters, the empty string included,
    never reaches the REPL: [run_agent] makes the one chain call and its
    outcome, a response or an exception, is the outcome of that call. *)
Theorem short_input_skips_repl
    (w : world) (input_text : string) (tr : list event)
    (Hlen : String.length input_text < 9) :
  emitted (run_agent w input_text) tr = [ChainRun input_text] /\
  outcome (run_agent w input_text tr) = llm_chain_run w tr input_text.
Proof.
  destruct (llm_chain_run w tr input_text) as [e|response] eqn:Hchain.
  - rewrite (run_agent_emitted_raises _ _ _ _ Hchain).
    now rewrite (run_agent_raises _ _ _ _ Hchain).
  - pose proof (run_agent_returns _ _ _ _ Hchain) as Hrun.
    pose proof (run_agent_emitted_returns _ _ _ _ Hchain) as Hem.
    cbv zeta in Hrun, Hem.
    rewrite (keyword_not_in_short _ Hlen) in Hrun, Hem.
    now rewrite Hrun, Hem.
Qed.

Lemma short_input_skips_repl_witness :
  emitted (run_agent (demo_world "Hello") "") [] = [ChainRun ""] /\
  outcome (run_agent broken_world "add 2+2" []) =
    inl (NameError "llm_chain").
Proof.
  split.
  - apply (short_input_skips_repl (demo_world "Hello") "" []). simpl. lia.
  - apply (short_input_skips_repl broken_world "add 2+2" []). simpl. lia.
Defined.

(** X3: what one call of [run_agent] does and does not do.  It only adds to
    the history; it starts with exactly one chain call, on the input as
    given; it runs the REPL at most once, after the chain call has
    returned, on the response; and it reads no environment variable,
    builds no client and makes no direct model invocation. *)
Theorem run_agent_trace_shape
    (w : world) (input_text : string) (tr : list event) :
  trace (run_agent w input_text tr) =
    tr ++ emitted (run_agent w input_text) tr /\
  (emitted (run_agent w input_text) tr = [ChainRun input_text] \/
   exists response,
     llm_chain_run w tr input_text = inr response /\
     emitted (run_agent w input_text) tr =
       [ChainRun input_text; ReplRun response]) /\
  env_reads (emitted (run_agent w input_text) tr) = [] /\
  client_inits (emitted (run_agent w input_text) tr) = [] /\
  llm_prompts (emitted (run_agent w input_text) tr) = [].
Proof.
  destruct (llm_chain_run w tr input_text) as [e|response] eqn:Hchain.
  - rewrite (run_agent_emitted_raises _ _ _ _ Hchain).
    rewrite (run_agent_raises _ _ _ _ Hchain). simpl.
    repeat split; try reflexivity. now left.
  - pose proof (run_agent_returns _ _ _ _ Hchain) as Hrun.
    pose proof (run_agent_emitted_returns _ _ _ _ Hchain) as Hem.
    cbv zeta in Hrun, Hem. rewrite Hrun, Hem.
    destruct (Text.str_in "calculate" (Text.lower input_text)); simpl.
    + repeat split; try reflexivity. right. now exists response.
    + repeat split; try reflexivity. now left.
Qed.

(** ** More on the credentials *)

(** Every way the two credential statements can go. *)
Lemma load_credentials_cases (w : world) (env : gmap string string)
    (tr : list event) :
  load_credentials w env tr =
    match env !! "GOOGLE_API_KEY" with
    | None => (inl (KeyError "GOOGLE_API_KEY"), tr ++ [EnvRead "GOOGLE_API_KEY"])
    | Some g =>
        match client_init w (tr ++ [EnvRead "GOOGLE_API_KEY"])
                "genai.configure" g with
        | inl e =>
            (inl e, tr ++ [EnvRead "GOOGLE_API_KEY";
                           ClientInit "genai.configure" g])
        | inr _ =>
            match env !! "PINECONE_API_KEY" with
            | None =>
                (inl (KeyError "PINECONE_API_KEY"),
                 tr ++ [EnvRead "GOOGLE_API_KEY";
                        ClientInit "genai.configure" g;
                        EnvRead "PINECONE_API_KEY"])
            | Some p =>
                (client_init w
                   (tr ++ [EnvRead "GOOGLE_API_KEY";
                           ClientInit "genai.configure" g;
                           EnvRead "PINECONE_API_KEY"]) "Pinecone" p,
                 tr ++ [EnvRead "GOOGLE_API_KEY";
                        ClientInit "genai.configure" g;
                        EnvRead "PINECONE_API_KEY";
                        ClientInit "Pinecone" p])
            end
        end
    end.
Proof.
  unfold load_credentials, bind at 1.
  destruct (env !! "GOOGLE_API_KEY") as [g|] eqn:Hg.
  - rewrite (configure_genai_present w env tr g Hg).
    destruct (client_init w _ "genai.configure" g) as [e|[]]; [reflexivity|].
    destruct (env !! "PINECONE_API_KEY") as [p|] eqn:Hp.
    + rewrite (pinecone_client_present w env _ p Hp).
      now rewrite <- !app_assoc.
    + rewrite (pinecone_client_absent w env _ Hp).
      now rewrite <- !app_assoc.
  - now rewrite (configure_genai_absent w env tr Hg).
Qed.

(** X5: nothing is undone on failure.  With the model key set and accepted
    and the vector-database key not set, the model client has been
    configured when the lookup of the second key ends the run in its
    [KeyError]. *)
Theorem missing_pinecone_key_after_genai_configured
    (w : world) (env : gmap string string) (tr : list event) (g : string)
    (Hg : env !! "GOOGLE_API_KEY" = Some g)
    (Hinit : client_init w (tr ++ [EnvRead "GOOGLE_API_KEY"])
               "genai.configure" g = inr tt)
    (Hp : env !! "PINECONE_API_KEY" = None) :
  load_credentials w env tr =
    (inl (KeyError "PINECONE_API_KEY"),
     tr ++ [EnvRead "GOOGLE_API_KEY"; ClientInit "genai.configure" g;
            EnvRead "PINECONE_API_KEY"]).
Proof.
  rewrite load_credentials_cases. now rewrite Hg, Hinit, Hp.
Qed.

Lemma missing_pinecone_key_after_genai_configured_witness :
  load_credentials (demo_world "") {[ "GOOGLE_API_KEY" := "g-key" ]} [] =
    (inl (KeyError "PINECONE_API_KEY"),
     [EnvRead "GOOGLE_API_KEY"; ClientInit "genai.configure" "g-key";
      EnvRead "PINECONE_API_KEY"]).
Proof.
  exact (missing_pinecone_key_after_genai_configured (demo_world "")
           {[ "GOOGLE_API_KEY" := "g-key" ]} [] "g-key"
           eq_refl eq_refl eq_refl).
Defined.

(** X6: a key only ever reaches its own client.  Whatever the environment
    and the services do, a value handed to [genai.configure] is the value
    of [GOOGLE_API_KEY], a value handed to [Pinecone] is the value of
    [PINECONE_API_KEY], and no other client receives anything. *)
Theorem keys_reach_only_their_client
    (w : world) (env : gmap string string) (tr : list event)
    (client key : string)
    (Hin : In (client, key)
              (client_inits (emitted (load_credentials w env) tr))) :
  (client = "genai.configure" /\ env !! "GOOGLE_API_KEY" = Some key) \/
  (client = "Pinecone" /\ env !! "PINECONE_API_KEY" = Some key).
Proof.
  pose proof (load_credentials_cases w env tr) as Hrun.
  destruct (env !! "GOOGLE_API_KEY") as [g|] eqn:Hg.
  - destruct (client_init w _ "genai.configure" g) as [e|[]].
    + erewrite emitted_app in Hin; [|now rewrite Hrun]. simpl in Hin.
      destruct Hin as [H | []]. inversion H. now left.
    + destruct (env !! "PINECONE_API_KEY") as [p|] eqn:Hp;
        (erewrite emitted_app in Hin; [|now rewrite Hrun]); simpl in Hin.
      * destruct Hin as [H | [H | []]]; inversion H; [now left | now right].
      * destruct Hin as [H | []]. inversion H. now left.
  - erewrite emitted_app in Hin; [|now rewrite Hrun]. destruct Hin.
Qed.

Lemma keys_reach_only_their_client_witness :
  ("Pinecone" = "genai.configure" /\
   two_keys !! "GOOGLE_API_KEY" = Some "p-key") \/
  ("Pinecone" = "Pinecone" /\ two_keys !! "PINECONE_API_KEY" = Some "p-key").
Proof.
  apply (keys_reach_only_their_client (demo_world "") two_keys []).
  vm_compute. right. left. reflexivity.
Defined.
